(** * Euler 070, plotplot.py: the numeric core of the plotting script

    The script evaluates three closed forms, [a], [p1p2] and [b], maps them
    over integer ranges to obtain the plotted points, and scans the gaps for
    the largest one whose ratio [n/b(n,gap)] does not exceed a reference
    minimum.

    Python computes in binary64.  The functions are embedded over the real
    numbers of the Standard Library: an operation that Python or numpy cannot
    answer with a real number ends in a [fault], and every function of the
    script is written in the resulting error monad.  The gap scan is embedded
    a second time over the kernel's binary64 floats (module [Binary64]),
    where it runs. *)

From Stdlib Require Import Reals Lra Lia ZArith List Bool.
From Stdlib Require PrimFloat Uint63.
Import ListNotations.

Local Open Scope R_scope.

(** ** Outcomes of a computation *)

(** What stops a numeric operation from answering with a real number.
    - [ZeroDivisionError]: raised by Python's float [/] on a zero divisor and
      by [**] on a zero base with a negative exponent.
    - [ComplexResult]: Python's [**] on a negative base with a fractional
      exponent answers with a complex number.
    - [FloatingPointError]: numpy's invalid-value and divide-by-zero signals
      ([np.sqrt] of a negative number, a numpy quotient by zero); under
      numpy's default error state the answer is nan or inf with a warning.
    - [TypeError]: arithmetic on [None]. *)
Inductive fault : Type :=
| ZeroDivisionError
| ComplexResult
| FloatingPointError
| TypeError.

Inductive outcome (A : Type) : Type :=
| Val (v : A)
| Fault (e : fault).

Arguments Val {A} v.
Arguments Fault {A} e.

Definition bind {A B : Type} (m : outcome A) (f : A -> outcome B) : outcome B :=
  match m with
  | Val v => f v
  | Fault e => Fault e
  end.

Notation "x <- m ;; k" := (bind m (fun x => k))
  (at level 61, m at next level, right associativity).
Notation "' p <- m ;; k" := (bind m (fun x => match x with p => k end))
  (at level 61, p pattern, m at next level, right associativity).

(** [list(map(f, xs))]: the first fault ends the whole map. *)
Fixpoint map_outcome {A B : Type} (f : A -> outcome B) (xs : list A)
  : outcome (list B) :=
  match xs with
  | [] => Val []
  | x :: xs' => y <- f x ;; ys <- map_outcome f xs' ;; Val (y :: ys)
  end.


(** ** Python's and numpy's operations on numbers *)

(** Python's [x / y] on floats. *)
Definition py_truediv (x y : R) : outcome R :=
  if Req_dec_T y 0 then Fault ZeroDivisionError else Val (x / y).

(** Whether a real is an integer. *)
Definition is_integer (y : R) : bool :=
  if Req_dec_T (IZR (Int_part y)) y then true else false.

(** Python's [x ** y] on floats (float_pow): a zero exponent gives 1; a zero
    base gives 0, or raises on a negative exponent; a negative base with a
    fractional exponent leaves the reals. *)
Definition py_pow (x y : R) : outcome R :=
  if Req_dec_T y 0 then Val 1
  else if Req_dec_T x 0 then
    if Rlt_dec y 0 then Fault ZeroDivisionError else Val 0
  else if Rlt_dec 0 x then Val (Rpower x y)
  else if is_integer y then Val (powerRZ x (Int_part y))
  else Fault ComplexResult.

(** [np.sqrt(x)]. *)
Definition np_sqrt (x : R) : outcome R :=
  if Rlt_dec x 0 then Fault FloatingPointError else Val (sqrt x).

(** [x / y] with a numpy float as divisor. *)
Definition np_truediv (x y : R) : outcome R :=
  if Req_dec_T y 0 then Fault FloatingPointError else Val (x / y).

(** [range(start, stop, step)] for a positive step. *)
Definition range (start stop step : Z) : list Z :=
  map (fun i => (start + step * Z.of_nat i)%Z)
      (seq 0 (Z.to_nat ((stop - start + step - 1) / step))).

(** [xs[i:]]: a negative index counts from the end. *)
Definition slice_from {A : Type} (xs : list A) (i : Z) : list A :=
  if (i <? 0)%Z
  then skipn (Z.to_nat (Z.max 0 (Z.of_nat (length xs) + i))) xs
  else skipn (Z.to_nat i) xs.

(** ** The functions of the script *)

(** [def a(n, k=2): return (n**(1/k) - 1)**k] *)
Definition a (n k : R) : outcome R :=
  e <- py_truediv 1 k ;;
  r <- py_pow n e ;;
  py_pow (r - 1) k.

(** [def p1p2(rt, k)] *)
Definition p1p2 (rt k : R) : outcome (R * R) :=
  let b := 2 * rt - k in
  s <- np_sqrt (b * b + 4 * k * rt) ;;
  let x := (- b + s) / 2 in
  let y := k - x in
  Val (rt - y, rt + x).

(** [def b(rt, gap)] *)
Definition b (rt gap : R) : outcome R :=
  '(p1, p2) <- p1p2 rt gap ;;
  Val ((p1 - 1) * (p2 - 1)).

(** [lambda n: n/a(n)], with [n] an integer of a range. *)
Definition ratio_a (n : Z) : outcome R :=
  d <- a (IZR n) 2 ;;
  py_truediv (IZR n) d.

(** [n/b(rt, k)]; [rt] is a numpy float, and so is the divisor. *)
Definition ratio (n rt k : R) : outcome R :=
  d <- b rt k ;;
  np_truediv n d.

(** [lambda k: n/b(rt, k)], with [n] and [k] integers of the script. *)
Definition ratio_b (n : Z) (rt : R) (k : Z) : outcome R :=
  ratio (IZR n) rt (IZR k).

(** [x], [y = list(map(f, x))] as the list of plotted points. *)
Definition plot_points (f : Z -> outcome R) (xs : list Z) : outcome (list (Z * R)) :=
  ys <- map_outcome f xs ;;
  Val (combine xs ys).

(** ** The gap scan *)

(** A loop that may run on: [None] when the fuel is spent. *)
Definition run (A : Type) : Type := option (outcome A).

(** [while r > rmin: k -= 2; r = n/b(rt, k)], then [gap = k]. *)
Fixpoint backtrack (fuel : nat) (n : Z) (rt rmin : R) (k : Z) (r : R) : run Z :=
  if Rgt_dec r rmin then
    match fuel with
    | O => None
    | S fuel' =>
        match ratio_b n rt (k - 2) with
        | Val r' => backtrack fuel' n rt rmin (k - 2) r'
        | Fault e => Some (Fault e)
        end
    end
  else Some (Val k).

(** [for k in xs: r = n/b(rt, k); if r > rmin: <backtrack>; gap = k; break].
    [gap] keeps its value when no ratio exceeds [rmin]. *)
Fixpoint scan (fuel : nat) (n : Z) (rt rmin : R) (xs : list Z) (gap : option Z)
  : run (option Z) :=
  match xs with
  | [] => Some (Val gap)
  | k :: xs' =>
      match ratio_b n rt k with
      | Fault e => Some (Fault e)
      | Val r =>
          if Rgt_dec r rmin then
            match backtrack fuel n rt rmin k r with
            | None => None
            | Some (Fault e) => Some (Fault e)
            | Some (Val g) => Some (Val (Some g))
            end
          else scan fuel n rt rmin xs' gap
      end
  end.

(** ** The script *)

(** [x = [gap for gap in range(0, 8000, 4)]] *)
Definition x_gaps : list Z := range 0 8000 4.

(** [n/b(np.sqrt(n), 0)]: the minimum ratio of [n], no gap. *)
Definition ratio_min (n : Z) : outcome R :=
  rt <- np_sqrt (IZR n) ;;
  d <- b rt 0 ;;
  np_truediv (IZR n) d.

Definition r75min : outcome R := ratio_min 7500000.
Definition r50min : outcome R := ratio_min 5000000.

Definition lift {A : Type} (m : outcome A) : run A := Some m.

Definition run_bind {A B : Type} (m : run A) (f : A -> run B) : run B :=
  match m with
  | None => None
  | Some (Fault e) => Some (Fault e)
  | Some (Val v) => f v
  end.

Notation "x <~ m ;; k" := (run_bind m (fun x => k))
  (at level 61, m at next level, right associativity).

(** The first scan: [gap = None], then the loop over [x] against [r75min]. *)
Definition gap75 (fuel : nat) : run (option Z) :=
  rmin <~ lift r75min ;;
  rt <~ lift (np_sqrt (IZR (10 ^ 7))) ;;
  scan fuel (10 ^ 7) rt rmin x_gaps None.

(** The second scan: the loop over [x[gap//4:]] against [r50min]. *)
Definition gap50_from (fuel : nat) (gap : option Z) : run (option Z) :=
  rmin <~ lift r50min ;;
  rt <~ lift (np_sqrt (IZR (10 ^ 7))) ;;
  match gap with
  | None => Some (Fault TypeError)
  | Some g => scan fuel (10 ^ 7) rt rmin (slice_from x_gaps (g / 4)) gap
  end.

Definition gap50 (fuel : nat) : run (option Z) :=
  g <~ gap75 fuel ;;
  gap50_from fuel g.





(** ** The closed form of the specification *)



(** ** The gap scan in binary64 *)

(** The same functions over the kernel's IEEE 754 binary64 numbers, rounded
    to nearest even as Python's and numpy's floats are.  No operation faults
    here: a division by zero gives an infinity and the square root of a
    negative number a nan. *)
Module Binary64.

Import PrimFloat.
Local Open Scope float_scope.

(** [float(z)] for a Python integer below 2^63 in absolute value. *)
Definition of_int (z : Z) : float :=
  match z with
  | Z0 => 0
  | Zpos _ => of_uint63 (Uint63.of_Z z)
  | Zneg p => - of_uint63 (Uint63.of_Z (Zpos p))
  end.

Definition p1p2 (rt : float) (k : Z) : float * float :=
  let b := 2 * rt - of_int k in
  let x := (- b + sqrt (b * b + of_int (4 * k) * rt)) / 2 in
  let y := of_int k - x in
  (rt - y, rt + x).

Definition b (rt : float) (gap : Z) : float :=
  let '(p1, p2) := p1p2 rt gap in
  (p1 - 1) * (p2 - 1).

Definition ratio_b (n : Z) (rt : float) (k : Z) : float :=
  of_int n / b rt k.

Definition ratio_min (n : Z) : float :=
  of_int n / b (sqrt (of_int n)) 0.

Fixpoint backtrack (fuel : nat) (n : Z) (rt rmin : float) (k : Z) (r : float)
  : option Z :=
  if ltb rmin r then
    match fuel with
    | O => None
    | S fuel' => backtrack fuel' n rt rmin (k - 2) (ratio_b n rt (k - 2))
    end
  else Some k.

Fixpoint scan (fuel : nat) (n : Z) (rt rmin : float) (xs : list Z)
  (gap : option Z) : option (option Z) :=
  match xs with
  | [] => Some gap
  | k :: xs' =>
      let r := ratio_b n rt k in
      if ltb rmin r then
        match backtrack fuel n rt rmin k r with
        | None => None
        | Some g => Some (Some g)
        end
      else scan fuel n rt rmin xs' gap
  end.

Definition gap75 (fuel : nat) : option (option Z) :=
  scan fuel (10 ^ 7) (sqrt (of_int (10 ^ 7))) (ratio_min 7500000) x_gaps None.

Definition gap50_from (fuel : nat) (gap : option Z) : option (option Z) :=
  match gap with
  | None => None
  | Some g =>
      scan fuel (10 ^ 7) (sqrt (of_int (10 ^ 7))) (ratio_min 5000000)
        (slice_from x_gaps (g / 4)) gap
  end.

(** [x] and [y] differ by at most [tol]. *)
Definition close (x y tol : float) : bool := leb (abs (x - y)) tol.

(** The relative error allowed, [2^-48]. *)
Definition tolerance : float := 0x1p-48.

(** For [rt = np.sqrt(n)] and every gap [k] of [x], the pair of [p1p2(rt, k)]
    has [p1 * p2] within [tol * rt^2] of [rt * rt] and [p2 - p1] within
    [tol * k] of [k]. *)
Definition factors_close (n : Z) (tol : float) : bool :=
  let rt := sqrt (of_int n) in
  forallb (fun k => let '(p1, p2) := p1p2 rt k in
                    close (p1 * p2) (rt * rt) (tol * (rt * rt))
                    && close (p2 - p1) (of_int k) (tol * of_int k))
          x_gaps.

End Binary64.


(** ** Notions used in the statements *)

(** The sum of the two factors of [p1p2], [sqrt (4 rt^2 + k^2)]. *)
Definition factor_sum (rt k : R) : R := sqrt (4 * rt ^ 2 + k ^ 2).

(** The value of [b], as a function. *)
Definition b_of (rt gap : R) : R := rt ^ 2 + 1 - factor_sum rt gap.

(** The ratio of a gap is defined and does not exceed [rmin]. *)
Definition within (n rt rmin : R) (k : Z) : Prop :=
  exists r, ratio n rt (IZR k) = Val r /\ r <= rmin.

(** The ratio of a gap is defined and exceeds [rmin]. *)
Definition beyond (n rt rmin : R) (k : Z) : Prop :=
  exists r, ratio n rt (IZR k) = Val r /\ rmin < r.

(** [g] is the largest even gap of [0..7996] within [rmin]: the even gaps
    of the range within [rmin] are those up to [g], and the next even gap
    is beyond it. *)
Definition is_threshold (n rt rmin : R) (g : Z) : Prop :=
  (0 <= g <= 7996)%Z /\ Z.even g = true /\
  within n rt rmin g /\ beyond n rt rmin (g + 2) /\
  forall k, (0 <= k <= 7996)%Z -> Z.even k = true ->
            (within n rt rmin k <-> (k <= g)%Z).

(** [rt = np.sqrt(10**7)] and the two reference minimums, as reals. *)
Definition rt_n : R := sqrt 10000000.
Definition r75 : R := 7500000 / (sqrt 7500000 - 1) ^ 2.
Definition r50 : R := 5000000 / (sqrt 5000000 - 1) ^ 2.

(** The points [(n, n/a(n))] of a range. *)
Definition points_a (xs : list Z) : list (Z * R) :=
  combine xs (map (fun n => IZR n / (sqrt (IZR n) - 1) ^ 2) xs).



(** In binary64: the ratios of the even gaps of [0..7996] that do not exceed
    [rmin] are exactly those of the gaps up to [g]. *)
Definition within_up_to (n : Z) (rmin : PrimFloat.float) (g : Z) : bool :=
  let rt := PrimFloat.sqrt (Binary64.of_int n) in
  forallb (fun k => Bool.eqb (PrimFloat.leb (Binary64.ratio_b n rt k) rmin)
                             (k <=? g)%Z)
          (range 0 7998 2).

(** * Properties *)

(** ** The primitive operations *)

Lemma bind_val {A B : Type} (v : A) (f : A -> outcome B) : bind (Val v) f = f v.
Proof. reflexivity. Qed.

Lemma bind_fault {A B : Type} (e : fault) (f : A -> outcome B) :
  bind (Fault e) f = Fault e.
Proof. reflexivity. Qed.

Lemma np_sqrt_val (x : R) : 0 <= x -> np_sqrt x = Val (sqrt x).
Proof.
  intros Hx. unfold np_sqrt.
  destruct (Rlt_dec x 0) as [Hneg | _]; [lra | reflexivity].
Qed.

Lemma np_sqrt_fault (x : R) : x < 0 -> np_sqrt x = Fault FloatingPointError.
Proof.
  intros Hx. unfold np_sqrt.
  destruct (Rlt_dec x 0) as [_ | Hpos]; [reflexivity | contradiction].
Qed.

Lemma py_truediv_val (x y : R) : y <> 0 -> py_truediv x y = Val (x / y).
Proof.
  intros Hy. unfold py_truediv.
  destruct (Req_dec_T y 0) as [H0 | _]; [contradiction | reflexivity].
Qed.


Lemma np_truediv_val (x y : R) : y <> 0 -> np_truediv x y = Val (x / y).
Proof.
  intros Hy. unfold np_truediv.
  destruct (Req_dec_T y 0) as [H0 | _]; [contradiction | reflexivity].
Qed.


Lemma Int_part_IZR (z : Z) : Int_part (IZR z) = z.
Proof.
  symmetry. apply Int_part_spec. lra.
Qed.

Lemma is_integer_IZR (z : Z) : is_integer (IZR z) = true.
Proof.
  unfold is_integer. rewrite Int_part_IZR.
  destruct (Req_dec_T (IZR z) (IZR z)) as [_ | H]; [reflexivity | now elim H].
Qed.

Lemma Rpower_two (x : R) : 0 < x -> Rpower x 2 = x * x.
Proof.
  intros Hx. replace 2 with (INR 2) by (simpl; lra).
  rewrite Rpower_pow by assumption. simpl. ring.
Qed.

Lemma Rpower_half (x : R) : 0 < x -> Rpower x (1 / 2) = sqrt x.
Proof.
  intros Hx. replace (1 / 2) with (/ 2) by lra. now apply Rpower_sqrt.
Qed.

(** Python's [x ** 0.5] on a nonnegative float is the square root. *)
Lemma py_pow_half (x : R) : 0 <= x -> py_pow x (1 / 2) = Val (sqrt x).
Proof.
  intros Hx. unfold py_pow.
  destruct (Req_dec_T (1 / 2) 0) as [H | _]; [lra |].
  destruct (Req_dec_T x 0) as [H0 | Hn0].
  - destruct (Rlt_dec (1 / 2) 0) as [H | _]; [lra |].
    subst x. now rewrite sqrt_0.
  - destruct (Rlt_dec 0 x) as [Hpos | Hnpos]; [| lra].
    now rewrite Rpower_half.
Qed.

(** Python's [x ** 2] is the square, whatever the sign of the base. *)
Lemma py_pow_two (x : R) : py_pow x 2 = Val (x * x).
Proof.
  unfold py_pow.
  destruct (Req_dec_T 2 0) as [H | _]; [lra |].
  destruct (Req_dec_T x 0) as [H0 | Hn0].
  - destruct (Rlt_dec 2 0) as [H | _]; [lra |].
    subst x. f_equal. ring.
  - destruct (Rlt_dec 0 x) as [Hpos | Hnpos].
    + now rewrite Rpower_two.
    + rewrite (is_integer_IZR 2), (Int_part_IZR 2). f_equal. simpl. ring.
Qed.

(** ** [a] *)

(** With the default [k = 2] and a nonnegative [n], [a] is [(sqrt n - 1)^2]. *)
Lemma a_default (n : R) : 0 <= n -> a n 2 = Val ((sqrt n - 1) ^ 2).
Proof.
  intros Hn. unfold a.
  rewrite py_truediv_val by lra. rewrite bind_val.
  rewrite py_pow_half by assumption. rewrite bind_val.
  rewrite py_pow_two. f_equal. ring.
Qed.

Lemma sqrt_gt_1 (n : R) : 1 < n -> 1 < sqrt n.
Proof.
  intros Hn. rewrite <- sqrt_1 at 1. apply sqrt_lt_1; lra.
Qed.

Lemma a_default_pos (n : R) : 1 < n -> 0 < (sqrt n - 1) ^ 2.
Proof.
  intros Hn. pose proof (sqrt_gt_1 n Hn) as Hs.
  simpl. rewrite Rmult_1_r. apply Rmult_lt_0_compat; lra.
Qed.

Lemma ratio_a_val (n : Z) :
  (2 <= n)%Z -> ratio_a n = Val (IZR n / (sqrt (IZR n) - 1) ^ 2).
Proof.
  intros Hn. unfold ratio_a.
  assert (H2 : 2 <= IZR n) by now apply IZR_le.
  rewrite a_default by lra. rewrite bind_val.
  apply py_truediv_val.
  pose proof (a_default_pos (IZR n)). lra.
Qed.

(** ** [p1p2] and [b] *)

(** The argument of the square root in [p1p2]. *)
Lemma sqrt_arg (rt k : R) :
  (2 * rt - k) * (2 * rt - k) + 4 * k * rt = 4 * rt ^ 2 + k ^ 2.
Proof. ring. Qed.

Lemma sqrt_arg_nonneg (rt k : R) : 0 <= 4 * rt ^ 2 + k ^ 2.
Proof. nra. Qed.

Lemma factor_sum_sq (rt k : R) :
  factor_sum rt k * factor_sum rt k = 4 * rt ^ 2 + k ^ 2.
Proof. apply sqrt_sqrt, sqrt_arg_nonneg. Qed.


(** [p1p2] never faults, and its factors are [(s - k)/2] and [(s + k)/2]
    for [s] the factor sum. *)
Lemma p1p2_val (rt k : R) :
  p1p2 rt k = Val ((factor_sum rt k - k) / 2, (factor_sum rt k + k) / 2).
Proof.
  unfold p1p2. cbv zeta. rewrite sqrt_arg.
  rewrite np_sqrt_val by apply sqrt_arg_nonneg.
  rewrite bind_val. fold (factor_sum rt k). f_equal. f_equal; field.
Qed.

Lemma b_val (rt gap : R) : b rt gap = Val (rt ^ 2 + 1 - factor_sum rt gap).
Proof.
  unfold b. rewrite p1p2_val, bind_val. f_equal.
  pose proof (factor_sum_sq rt gap) as Hs. nra.
Qed.

Lemma factor_sum_mono (rt g1 g2 : R) :
  0 <= g1 -> g1 < g2 -> factor_sum rt g1 < factor_sum rt g2.
Proof.
  intros H1 H12. unfold factor_sum.
  apply sqrt_lt_1; try apply sqrt_arg_nonneg. nra.
Qed.

Lemma factor_sum_zero (rt : R) : 0 <= rt -> factor_sum rt 0 = 2 * rt.
Proof.
  intros Hrt. unfold factor_sum. apply sqrt_lem_1; nra.
Qed.



Lemma ratio_val (n rt k : R) :
  b_of rt k <> 0 -> ratio n rt k = Val (n / b_of rt k).
Proof.
  intros Hb. unfold ratio. rewrite b_val, bind_val.
  now apply np_truediv_val.
Qed.



(** ** Monotonicity in the gap *)

(** [b] decreases strictly in the gap, on all nonnegative gaps. *)
Lemma b_of_decreasing (rt g1 g2 : R) :
  0 <= g1 -> g1 < g2 -> b_of rt g2 < b_of rt g1.
Proof.
  intros H1 H12. unfold b_of.
  pose proof (factor_sum_mono rt g1 g2 H1 H12). lra.
Qed.

Lemma Rdiv_lt_denominators (n d1 d2 : R) :
  0 < n -> 0 < d2 -> d2 < d1 -> n / d1 < n / d2.
Proof.
  intros Hn Hd2 Hd. unfold Rdiv.
  apply Rmult_lt_compat_l; [assumption |].
  apply Rinv_lt_contravar; [| assumption].
  apply Rmult_lt_0_compat; lra.
Qed.

(** The ratio [n/b(rt, gap)] increases strictly as long as [b] is positive. *)
Lemma ratio_increasing (n rt g1 g2 : R) :
  0 < n -> 0 <= g1 -> g1 < g2 -> 0 < b_of rt g2 ->
  n / b_of rt g1 < n / b_of rt g2.
Proof.
  intros Hn H1 H12 Hpos.
  apply Rdiv_lt_denominators; try assumption.
  now apply b_of_decreasing.
Qed.

Lemma ratio_nondecreasing (n rt g1 g2 : R) :
  0 < n -> 0 <= g1 -> g1 <= g2 -> 0 < b_of rt g2 ->
  n / b_of rt g1 <= n / b_of rt g2.
Proof.
  intros Hn H1 H12 Hpos.
  destruct (Req_dec_T g1 g2) as [-> | Hne]; [lra |].
  left. apply ratio_increasing; try assumption. lra.
Qed.

(** Comparing two ratios with positive denominators. *)
Lemma Rdiv_le_cross (n1 d1 n2 d2 : R) :
  0 < d1 -> 0 < d2 -> n1 * d2 <= n2 * d1 -> n1 / d1 <= n2 / d2.
Proof.
  intros H1 H2 H.
  apply (Rmult_le_reg_r (d1 * d2)); [apply Rmult_lt_0_compat; assumption |].
  replace (n1 / d1 * (d1 * d2)) with (n1 * d2) by (field; lra).
  replace (n2 / d2 * (d1 * d2)) with (n2 * d1) by (field; lra).
  assumption.
Qed.

Lemma Rdiv_lt_cross (n1 d1 n2 d2 : R) :
  0 < d1 -> 0 < d2 -> n1 * d2 < n2 * d1 -> n1 / d1 < n2 / d2.
Proof.
  intros H1 H2 H.
  apply (Rmult_lt_reg_r (d1 * d2)); [apply Rmult_lt_0_compat; assumption |].
  replace (n1 / d1 * (d1 * d2)) with (n1 * d2) by (field; lra).
  replace (n2 / d2 * (d1 * d2)) with (n2 * d1) by (field; lra).
  assumption.
Qed.

(** Bounds on a square root from the squares of the bounds. *)
Lemma sqrt_between (x lo hi : R) :
  0 <= lo -> 0 <= hi -> lo * lo < x -> x < hi * hi -> lo < sqrt x < hi.
Proof.
  intros Hlo Hhi H1 H2. split.
  - rewrite <- (sqrt_square lo) at 1 by assumption.
    apply sqrt_lt_1; nra.
  - rewrite <- (sqrt_square hi) by assumption.
    apply sqrt_lt_1; nra.
Qed.

(** ** [range] *)

Lemma in_range (start stop step k : Z) :
  (0 < step)%Z -> In k (range start stop step) -> (start <= k < stop)%Z.
Proof.
  intros Hstep Hin. unfold range in Hin.
  apply in_map_iff in Hin. destruct Hin as [i [Hk Hi]].
  apply in_seq in Hi. subst k.
  set (q := ((stop - start + step - 1) / step)%Z) in *.
  assert (Hq : (step * q <= stop - start + step - 1)%Z)
    by (apply Z.mul_div_le; assumption).
  assert (Hiq : (Z.of_nat i < q)%Z) by lia.
  split; nia.
Qed.

Lemma Forall_range (start stop step : Z) :
  (0 < step)%Z ->
  Forall (fun k => (start <= k < stop)%Z) (range start stop step).
Proof.
  intros Hstep. apply Forall_forall. intros k Hk.
  now apply (in_range start stop step).
Qed.

(** ** The scan *)

Section Scan.

Variables (n : Z) (rt rmin : R).

Local Abbreviation within := (within (IZR n) rt rmin).
Local Abbreviation beyond := (beyond (IZR n) rt rmin).
Local Abbreviation is_threshold := (is_threshold (IZR n) rt rmin).

Lemma scan_within (fuel : nat) (front back : list Z) (gap : option Z) :
  Forall within front ->
  scan fuel n rt rmin (front ++ back) gap = scan fuel n rt rmin back gap.
Proof.
  induction 1 as [| k front [r [Hr Hle]] _ IH]; [reflexivity |].
  change (ratio_b n rt k = Val r) in Hr.
  cbn [app scan]. rewrite Hr.
  destruct (Rgt_dec r rmin) as [Hgt | _]; [unfold Rgt in Hgt; lra | exact IH].
Qed.

(** One step back is enough when the gap two below is within [rmin]. *)
Lemma backtrack_once (fuel : nat) (k : Z) (r : R) :
  rmin < r -> within (k - 2) ->
  backtrack (S fuel) n rt rmin k r = Some (Val (k - 2)%Z).
Proof.
  intros Hr [r' [Hr' Hle]].
  change (ratio_b n rt (k - 2) = Val r') in Hr'.
  cbn [backtrack].
  destruct (Rgt_dec r rmin) as [_ | Hn]; [| unfold Rgt in Hn; lra].
  rewrite Hr'. destruct fuel; cbn [backtrack];
    (destruct (Rgt_dec r' rmin) as [Hgt | _];
     [unfold Rgt in Hgt; lra | reflexivity]).
Qed.

Lemma scan_crossing (fuel : nat) (front back : list Z) (g : Z)
  (gap : option Z) :
  Forall within front -> within g -> beyond (g + 2) ->
  scan (S fuel) n rt rmin (front ++ (g + 2)%Z :: back) gap
  = Some (Val (Some g)).
Proof.
  intros Hfront Hg [r [Hr Hlt]].
  change (ratio_b n rt (g + 2) = Val r) in Hr.
  rewrite scan_within by assumption.
  cbn [scan]. rewrite Hr.
  destruct (Rgt_dec r rmin) as [_ | Hn]; [| unfold Rgt in Hn; lra].
  rewrite backtrack_once; try assumption.
  - do 3 f_equal. lia.
  - now replace (g + 2 - 2)%Z with g by lia.
Qed.

End Scan.

(** ** Thresholds *)

Section Threshold.

Variables (n rt rmin : R).

Local Abbreviation within := (within n rt rmin).
Local Abbreviation beyond := (beyond n rt rmin).
Local Abbreviation is_threshold := (is_threshold n rt rmin).

Hypothesis n_pos : 0 < n.

Lemma within_iff (k : Z) :
  0 < b_of rt (IZR k) -> (within k <-> n / b_of rt (IZR k) <= rmin).
Proof.
  intros Hb. unfold within. rewrite ratio_val by lra. split.
  - intros [r [Hr Hle]]. now injection Hr as <-.
  - intros Hle. eexists. split; [reflexivity | assumption].
Qed.

Lemma beyond_iff (k : Z) :
  0 < b_of rt (IZR k) -> (beyond k <-> rmin < n / b_of rt (IZR k)).
Proof.
  intros Hb. unfold beyond. rewrite ratio_val by lra. split.
  - intros [r [Hr Hle]]. now injection Hr as <-.
  - intros Hle. eexists. split; [reflexivity | assumption].
Qed.

(** Below a gap within [rmin], every gap is within [rmin]. *)
Lemma within_downward (k g : Z) :
  (0 <= k <= g)%Z -> 0 < b_of rt (IZR g) -> within g -> within k.
Proof.
  intros [Hk Hkg] Hb Hg.
  assert (Hbk : 0 < b_of rt (IZR k)).
  { apply IZR_le in Hk, Hkg.
    destruct (Req_dec_T (IZR k) (IZR g)) as [-> | Hne]; [assumption |].
    pose proof (b_of_decreasing rt (IZR k) (IZR g)). lra. }
  apply within_iff in Hg; [| assumption].
  apply within_iff; [assumption |].
  apply Rle_trans with (2 := Hg).
  apply ratio_nondecreasing; try assumption; now apply IZR_le.
Qed.

(** Above a gap beyond [rmin], no gap with a positive [b] is within
    [rmin]. *)
Lemma beyond_upward (k g : Z) :
  (0 <= g <= k)%Z -> 0 < b_of rt (IZR k) -> beyond g -> ~ within k.
Proof.
  intros [Hg Hgk] Hb Hbey Hwk.
  assert (Hbg : 0 < b_of rt (IZR g)).
  { apply IZR_le in Hg, Hgk.
    destruct (Req_dec_T (IZR g) (IZR k)) as [-> | Hne]; [assumption |].
    pose proof (b_of_decreasing rt (IZR g) (IZR k)). lra. }
  apply beyond_iff in Hbey; [| assumption].
  apply within_iff in Hwk; [| assumption].
  assert (n / b_of rt (IZR g) <= n / b_of rt (IZR k)); [| lra].
  apply ratio_nondecreasing; try assumption; now apply IZR_le.
Qed.

(** A crossing between [g] and [g + 2] makes [g] the threshold, when [b]
    is positive on the whole range of gaps. *)
Lemma crossing_is_threshold (g : Z) :
  (0 <= g <= 7996)%Z -> Z.even g = true ->
  0 < b_of rt 7998 ->
  within g -> beyond (g + 2) -> is_threshold g.
Proof.
  intros Hg Heven Hb Hwg Hbey.
  assert (Hpos : forall k, (0 <= k <= 7998)%Z -> 0 < b_of rt (IZR k)).
  { intros k [Hk0 Hk]. apply IZR_le in Hk0, Hk.
    destruct (Req_dec_T (IZR k) 7998) as [-> | Hne]; [assumption |].
    pose proof (b_of_decreasing rt (IZR k) 7998). lra. }
  repeat split; try assumption; try lia.
  - intros Hwk.
    destruct (Z_le_gt_dec k g) as [Hle | Hgt]; [assumption | exfalso].
    assert (Hk2 : (g + 2 <= k)%Z).
    { rewrite Z.even_spec in *. destruct Heven as [i ->], H0 as [j ->]. lia. }
    apply (beyond_upward k (g + 2)); try assumption; [lia |].
    apply Hpos; lia.
  - intros Hle. apply (within_downward k g); try assumption; [lia |].
    apply Hpos; lia.
Qed.

End Threshold.

(** ** The numbers of the script *)

Lemma ten_to_7 : (10 ^ 7)%Z = 10000000%Z.
Proof. reflexivity. Qed.

Lemma b_of_sqrt (m k : R) :
  0 <= m -> b_of (sqrt m) k = m + 1 - sqrt (4 * m + k ^ 2).
Proof.
  intros Hm. unfold b_of, factor_sum.
  rewrite pow2_sqrt by assumption. reflexivity.
Qed.

Lemma b_of_sqrt_zero (m : R) :
  0 <= m -> b_of (sqrt m) 0 = (sqrt m - 1) ^ 2.
Proof.
  intros Hm. unfold b_of.
  rewrite factor_sum_zero by apply sqrt_pos.
  ring.
Qed.

Lemma ratio_min_val (m : Z) :
  (2 <= m)%Z -> ratio_min m = Val (IZR m / (sqrt (IZR m) - 1) ^ 2).
Proof.
  intros Hm. apply IZR_le in Hm. unfold ratio_min.
  rewrite np_sqrt_val by lra. rewrite bind_val.
  rewrite b_val, bind_val. fold (b_of (sqrt (IZR m)) 0).
  rewrite b_of_sqrt_zero by lra.
  apply np_truediv_val.
  pose proof (a_default_pos (IZR m)). lra.
Qed.

Lemma r75min_val : r75min = Val r75.
Proof. unfold r75min. now rewrite ratio_min_val by lia. Qed.

Lemma r50min_val : r50min = Val r50.
Proof. unfold r50min. now rewrite ratio_min_val by lia. Qed.

Lemma rt_n_val : np_sqrt (IZR (10 ^ 7)) = Val rt_n.
Proof. rewrite ten_to_7. apply np_sqrt_val. lra. Qed.

Lemma rt_n_large : 1 < rt_n.
Proof. apply sqrt_gt_1. lra. Qed.

Lemma b_of_rt_n (k : R) : b_of rt_n k = 10000001 - sqrt (40000000 + k ^ 2).
Proof.
  unfold rt_n. rewrite b_of_sqrt by lra.
  replace (4 * 10000000 + k ^ 2) with (40000000 + k ^ 2) by ring. lra.
Qed.

Lemma sq_minus_one (m : R) :
  0 <= m -> (sqrt m - 1) ^ 2 = m + 1 - 2 * sqrt m.
Proof.
  intros Hm.
  replace ((sqrt m - 1) ^ 2) with (sqrt m * sqrt m + 1 - 2 * sqrt m) by ring.
  now rewrite sqrt_sqrt.
Qed.

Lemma sqrt_7500000 : 273861 / 100 < sqrt 7500000 < 273862 / 100.
Proof. apply sqrt_between; lra. Qed.

Lemma sqrt_5000000 : 223606 / 100 < sqrt 5000000 < 223607 / 100.
Proof. apply sqrt_between; lra. Qed.

(** [b] stays positive on the gaps of the scan, up to 7998. *)
Lemma b_of_rt_n_7998 : 0 < b_of rt_n 7998.
Proof.
  rewrite b_of_rt_n.
  pose proof (sqrt_between (40000000 + 7998 ^ 2) 10196 10197). lra.
Qed.

Lemma b_of_rt_n_pos (k : Z) : (0 <= k <= 7998)%Z -> 0 < b_of rt_n (IZR k).
Proof.
  intros [Hk0 Hk]. apply IZR_le in Hk0, Hk.
  destruct (Req_dec_T (IZR k) 7998) as [-> | Hne]; [apply b_of_rt_n_7998 |].
  pose proof (b_of_decreasing rt_n (IZR k) 7998).
  pose proof b_of_rt_n_7998. lra.
Qed.

(** The first crossing: the ratio of gap 3650 is within [r75], that of 3652
    beyond it. *)
Lemma within_3650 : within (IZR (10 ^ 7)) rt_n r75 3650.
Proof.
  pose proof (b_of_rt_n_pos 3650 ltac:(lia)) as Hb.
  apply within_iff; [assumption |]. rewrite ten_to_7.
  pose proof sqrt_7500000 as [Hlo Hhi].
  unfold r75. rewrite sq_minus_one by lra.
  rewrite b_of_rt_n in *.
  pose proof (sqrt_between (40000000 + 3650 ^ 2) (730222 / 100) (730223 / 100)).
  apply Rdiv_le_cross; lra.
Qed.

Lemma beyond_3652 : beyond (IZR (10 ^ 7)) rt_n r75 3652.
Proof.
  pose proof (b_of_rt_n_pos 3652 ltac:(lia)) as Hb.
  apply beyond_iff; [assumption |]. rewrite ten_to_7.
  pose proof sqrt_7500000 as [Hlo Hhi].
  unfold r75. rewrite sq_minus_one by lra.
  rewrite b_of_rt_n in *.
  pose proof (sqrt_between (40000000 + 3652 ^ 2) (730322 / 100) (730323 / 100)).
  apply Rdiv_lt_cross; lra.
Qed.

(** The second crossing, between 6322 and 6324. *)
Lemma within_6322 : within (IZR (10 ^ 7)) rt_n r50 6322.
Proof.
  pose proof (b_of_rt_n_pos 6322 ltac:(lia)) as Hb.
  apply within_iff; [assumption |]. rewrite ten_to_7.
  pose proof sqrt_5000000 as [Hlo Hhi].
  unfold r50. rewrite sq_minus_one by lra.
  rewrite b_of_rt_n in *.
  pose proof (sqrt_between (40000000 + 6322 ^ 2) (894246 / 100) (894247 / 100)).
  apply Rdiv_le_cross; lra.
Qed.

Lemma beyond_6324 : beyond (IZR (10 ^ 7)) rt_n r50 6324.
Proof.
  pose proof (b_of_rt_n_pos 6324 ltac:(lia)) as Hb.
  apply beyond_iff; [assumption |]. rewrite ten_to_7.
  pose proof sqrt_5000000 as [Hlo Hhi].
  unfold r50. rewrite sq_minus_one by lra.
  rewrite b_of_rt_n in *.
  pose proof (sqrt_between (40000000 + 6324 ^ 2) (894387 / 100) (894388 / 100)).
  apply Rdiv_lt_cross; lra.
Qed.

(** ** The two scans of the script *)

Lemma x_gaps_first_crossing :
  x_gaps = range 0 3649 4 ++ (3650 + 2)%Z :: range 3656 8000 4.
Proof. vm_compute. reflexivity. Qed.

Lemma x_gaps_second_crossing :
  slice_from x_gaps (3650 / 4) =
  range 3648 6321 4 ++ (6322 + 2)%Z :: range 6328 8000 4.
Proof. vm_compute. reflexivity. Qed.

Lemma ten_to_7_pos : 0 < IZR (10 ^ 7).
Proof. rewrite ten_to_7. lra. Qed.

Lemma within_front (rmin : R) (g lo hi : Z) :
  (0 <= lo)%Z -> (hi <= g + 1)%Z -> (g <= 7998)%Z ->
  within (IZR (10 ^ 7)) rt_n rmin g ->
  Forall (within (IZR (10 ^ 7)) rt_n rmin) (range lo hi 4).
Proof.
  intros Hlo Hhi Hg Hw. apply Forall_forall. intros k Hk.
  apply in_range in Hk; [| lia].
  apply (within_downward (IZR (10 ^ 7)) rt_n rmin ten_to_7_pos k g);
    try assumption.
  - lia.
  - apply b_of_rt_n_pos. lia.
Qed.

Lemma gap75_val (fuel : nat) : gap75 (S fuel) = Some (Val (Some 3650%Z)).
Proof.
  unfold gap75. rewrite r75min_val, rt_n_val. cbn [lift run_bind].
  rewrite x_gaps_first_crossing.
  apply scan_crossing.
  - apply (within_front r75 3650); try lia. apply within_3650.
  - apply within_3650.
  - apply beyond_3652.
Qed.

Lemma gap50_from_val (fuel : nat) :
  gap50_from (S fuel) (Some 3650%Z) = Some (Val (Some 6322%Z)).
Proof.
  unfold gap50_from. rewrite r50min_val, rt_n_val. cbn [lift run_bind].
  rewrite x_gaps_second_crossing.
  apply scan_crossing.
  - apply (within_front r50 6322); try lia. apply within_6322.
  - apply within_6322.
  - apply beyond_6324.
Qed.

Lemma gap50_val (fuel : nat) : gap50 (S fuel) = Some (Val (Some 6322%Z)).
Proof.
  unfold gap50. rewrite gap75_val. cbn [run_bind]. apply gap50_from_val.
Qed.

Lemma threshold_3650 : is_threshold (IZR (10 ^ 7)) rt_n r75 3650.
Proof.
  apply crossing_is_threshold; try (reflexivity || lia).
  - apply ten_to_7_pos.
  - apply b_of_rt_n_7998.
  - apply within_3650.
  - apply beyond_3652.
Qed.

Lemma threshold_6322 : is_threshold (IZR (10 ^ 7)) rt_n r50 6322.
Proof.
  apply crossing_is_threshold; try (reflexivity || lia).
  - apply ten_to_7_pos.
  - apply b_of_rt_n_7998.
  - apply within_6322.
  - apply beyond_6324.
Qed.

(** ** The whole script *)

Lemma map_outcome_val {A B : Type} (f : A -> outcome B) (g : A -> B)
  (xs : list A) :
  (forall x, In x xs -> f x = Val (g x)) ->
  map_outcome f xs = Val (map g xs).
Proof.
  induction xs as [| x xs IH]; intros Hf; [reflexivity |].
  cbn [map_outcome map].
  rewrite (Hf x) by now left. rewrite bind_val.
  rewrite IH by (intros y Hy; apply Hf; now right).
  reflexivity.
Qed.

(** The first fault of a map is the outcome of the map. *)
Lemma map_outcome_fault {A B : Type} (f : A -> outcome B) (g : A -> B)
  (front back : list A) (x : A) (e : fault) :
  (forall y, In y front -> f y = Val (g y)) ->
  f x = Fault e ->
  map_outcome f (front ++ x :: back) = Fault e.
Proof.
  induction front as [| y front IH]; intros Hfront Hx; cbn [app map_outcome].
  - now rewrite Hx.
  - rewrite (Hfront y) by now left. rewrite bind_val.
    rewrite IH; [reflexivity | | assumption].
    intros z Hz. apply Hfront. now right.
Qed.

Lemma plot_points_val (f : Z -> outcome R) (g : Z -> R) (xs : list Z) :
  (forall x, In x xs -> f x = Val (g x)) ->
  plot_points f xs = Val (combine xs (map g xs)).
Proof.
  intros Hf. unfold plot_points.
  now rewrite (map_outcome_val f g xs Hf).
Qed.



Lemma plot_a_val (lo hi step : Z) :
  (2 <= lo)%Z -> (0 < step)%Z ->
  plot_points ratio_a (range lo hi step) = Val (points_a (range lo hi step)).
Proof.
  intros Hlo Hstep. apply plot_points_val.
  intros n Hn. apply in_range in Hn; [| assumption].
  apply ratio_a_val. lia.
Qed.


(** ** Python's power and the real power *)









(** ** Faults *)












(** * The claims *)



(** C2: for both reference minimums, [r75min] and [r50min], the scan over
    the gaps for [n = 10^7] and [rt = sqrt n] ends, whatever positive fuel
    its inner loop is given, with the largest even gap of [0..7996] whose
    ratio [n/b(rt, gap)] does not exceed the minimum: 3650 for [r75min] and
    6322 for [r50min].  The ratio of that gap is at most the minimum, that
    of the gap plus 2 is above it. *)
Theorem gap_scan_threshold (fuel : nat) :
  r75min = Val r75 /\ r50min = Val r50 /\
  np_sqrt (IZR (10 ^ 7)) = Val rt_n /\
  gap75 (S fuel) = Some (Val (Some 3650%Z)) /\
  is_threshold (IZR (10 ^ 7)) rt_n r75 3650 /\
  gap50 (S fuel) = Some (Val (Some 6322%Z)) /\
  is_threshold (IZR (10 ^ 7)) rt_n r50 6322.
Proof.
  split; [apply r75min_val |].
  split; [apply r50min_val |].
  split; [apply rt_n_val |].
  split; [apply gap75_val |].
  split; [apply threshold_3650 |].
  split; [apply gap50_val | apply threshold_6322].
Qed.

(** The two scans run in binary64 end with the same gaps, and these are the
    thresholds of the binary64 ratios as well. *)
Theorem binary64_scans (fuel : nat) :
  Binary64.gap75 (S fuel) = Some (Some 3650%Z) /\
  Binary64.gap50_from (S fuel) (Some 3650%Z) = Some (Some 6322%Z) /\
  within_up_to (10 ^ 7) (Binary64.ratio_min 7500000) 3650 = true /\
  within_up_to (10 ^ 7) (Binary64.ratio_min 5000000) 6322 = true.
Proof.
  split; [destruct fuel; vm_compute; reflexivity |].
  split; [destruct fuel; vm_compute; reflexivity |].
  split; vm_compute; reflexivity.
Qed.

(** On the inputs of the script the factors of [p1p2] computed in binary64
    meet the two equations of C1 to a relative error of [2^-48]. *)
Theorem binary64_factors :
  Binary64.factors_close (10 ^ 7) Binary64.tolerance = true /\
  Binary64.factors_close 7500000 Binary64.tolerance = true /\
  Binary64.factors_close 5000000 Binary64.tolerance = true.
Proof.
  split; [| split]; vm_compute; reflexivity.
Qed.



(** C4: for all reals [rt >= 0] and [gap >= 0], [b(rt, gap)] is
    [(p1 - 1) * (p2 - 1)] for the pair [(p1, p2)] that [p1p2(rt, gap)]
    returns. *)
Theorem b_from_factors (rt gap : R) :
  0 <= rt -> 0 <= gap ->
  exists p1 p2,
    p1p2 rt gap = Val (p1, p2) /\ b rt gap = Val ((p1 - 1) * (p2 - 1)).
Proof.
  intros _ _.
  exists ((factor_sum rt gap - gap) / 2), ((factor_sum rt gap + gap) / 2).
  split; [apply p1p2_val |].
  unfold b. now rewrite p1p2_val, bind_val.
Qed.

Lemma b_from_factors_witness :
  0 <= 3 /\ 0 <= 4 /\
  exists p1 p2,
    p1p2 3 4 = Val (p1, p2) /\ b 3 4 = Val ((p1 - 1) * (p2 - 1)).
Proof.
  split; [lra |]. split; [lra |].
  apply (b_from_factors 3 4); lra.
Defined.

(** C5: [a(100, 2)] is 81, that is [(100^(1/2) - 1)^2 = 9^2]. *)
Theorem a_100_2 : a 100 2 = Val 81.
Proof.
  rewrite a_default by lra.
  replace (sqrt 100) with 10 by (symmetry; apply sqrt_lem_1; lra).
  f_equal. lra.
Qed.











(** * Further properties of the code *)

(** ** The factors of [p1p2] *)









(** ** The ratio [n/a(n)] *)















(** ** What the scan returns *)

Section ScanResults.

Variables (n : Z) (rt rmin : R).

Local Abbreviation within := (within (IZR n) rt rmin).
Local Abbreviation beyond := (beyond (IZR n) rt rmin).





End ScanResults.


(** ** The scan over a range of gaps *)

Section ScanOfRange.

Variables (n : Z) (rt rmin : R).

Local Abbreviation within := (within (IZR n) rt rmin).
Local Abbreviation beyond := (beyond (IZR n) rt rmin).

Hypothesis n_pos : 0 < IZR n.

(** The gaps [4 s, 4 (s + 1), ...], [len] of them. *)
Local Abbreviation gaps_from s len :=
  (map (fun i => (0 + 4 * Z.of_nat i)%Z) (seq s len)).




End ScanOfRange.






(** ** Ranges, slices and plotted points *)

Lemma NoDup_map_injective {A B : Type} (f : A -> B) (l : list A) :
  (forall x y, f x = f y -> x = y) -> NoDup l -> NoDup (map f l).
Proof.
  intros Hinj. induction 1 as [| x l Hx _ IH]; cbn [map]; constructor.
  - intros Hin. apply in_map_iff in Hin. destruct Hin as [y [Hy Hin]].
    apply Hinj in Hy. now subst y.
  - exact IH.
Qed.

Lemma map_seq_from {B : Type} (f : nat -> B) (len s : nat) :
  map f (seq s len) = map (fun j => f (s + j)%nat) (seq 0 len).
Proof.
  revert s. induction len as [| len IH]; intros s; [reflexivity |].
  cbn [seq map]. rewrite Nat.add_0_r. f_equal.
  rewrite IH, <- seq_shift, map_map.
  apply map_ext. intros j. f_equal. lia.
Qed.

(** X12: [range(start, stop, step)] for a positive step holds exactly the
    [k] of [start <= k < stop] with [k - start] a multiple of [step], each
    once, [ceil ((stop - start) / step)] of them. *)
Theorem range_spec (start stop step k : Z) :
  (0 < step)%Z ->
  (In k (range start stop step) <->
   (start <= k < stop)%Z /\ ((k - start) mod step = 0)%Z) /\
  length (range start stop step)
  = Z.to_nat ((stop - start + step - 1) / step) /\
  NoDup (range start stop step).
Proof.
  intros Hstep.
  set (len := ((stop - start + step - 1) / step)%Z).
  assert (Hlen : (step * len <= stop - start + step - 1 < step * (len + 1))%Z).
  { unfold len. split; [apply Z.mul_div_le; lia |].
    pose proof (Z.mul_succ_div_gt (stop - start + step - 1) step Hstep). lia. }
  split; [split | split].
  - intros Hin. split; [now apply (in_range start stop step) |].
    unfold range in Hin. apply in_map_iff in Hin.
    destruct Hin as [i [<- _]].
    replace (start + step * Z.of_nat i - start)%Z with (Z.of_nat i * step)%Z
      by lia.
    apply Z.mod_mul. lia.
  - intros [[Hlo Hhi] Hmod].
    apply Z.mod_divide in Hmod; [| lia]. destruct Hmod as [q Hq].
    unfold range. apply in_map_iff. exists (Z.to_nat q).
    assert (Hq0 : (0 <= q)%Z) by nia.
    split; [rewrite Z2Nat.id by assumption; lia |].
    apply in_seq. fold len.
    assert (q < len)%Z by nia. lia.
  - unfold range. rewrite length_map, length_seq. reflexivity.
  - unfold range. apply NoDup_map_injective; [| apply seq_NoDup].
    intros i j Hij. nia.
Qed.

Lemma range_spec_witness :
  (0 < 4)%Z /\
  (In 3652%Z (range 0 8000 4) <->
   (0 <= 3652 < 8000)%Z /\ ((3652 - 0) mod 4 = 0)%Z) /\
  length (range 0 8000 4) = Z.to_nat ((8000 - 0 + 4 - 1) / 4) /\
  NoDup (range 0 8000 4).
Proof.
  split; [lia |]. apply (range_spec 0 8000 4 3652). lia.
Defined.

(** X11: slicing the gaps by index resumes at a gap: for a positive step
    and [i >= 0], [range(0, stop, step)[i:]] is
    [range(step * i, stop, step)].  So [x[gap//4:]] starts at the multiple
    of 4 at or just below [gap]. *)
Theorem slice_of_range (stop step i : Z) :
  (0 < step)%Z -> (0 <= i)%Z ->
  slice_from (range 0 stop step) i = range (step * i) stop step.
Proof.
  intros Hstep Hi. unfold slice_from.
  destruct (Z.ltb_spec i 0) as [H | _]; [lia |].
  unfold range. rewrite skipn_map, skipn_seq.
  replace ((stop - step * i + step - 1) / step)%Z
    with ((stop - 0 + step - 1) / step - i)%Z.
  2:{ replace (stop - step * i + step - 1)%Z
        with (stop - 0 + step - 1 + (- i) * step)%Z by lia.
      rewrite Z.div_add by lia. lia. }
  rewrite Z2Nat.inj_sub by assumption.
  rewrite map_seq_from. apply map_ext.
  intros j. lia.
Qed.

Lemma slice_of_range_witness :
  (0 < 4)%Z /\ (0 <= 3650 / 4)%Z /\
  slice_from (range 0 8000 4) (3650 / 4) = range (4 * (3650 / 4)) 8000 4.
Proof.
  split; [lia |]. split; [apply Z.div_pos; lia |].
  apply (slice_of_range 8000 4 (3650 / 4)); [lia | apply Z.div_pos; lia].
Defined.

Lemma map_outcome_Forall2 {A B : Type} (f : A -> outcome B) (xs : list A)
  (ys : list B) :
  map_outcome f xs = Val ys <-> Forall2 (fun x y => f x = Val y) xs ys.
Proof.
  revert ys. induction xs as [| x xs IH]; intros ys; cbn [map_outcome].
  - split.
    + intros H. injection H as <-. constructor.
    + intros H. inversion H. reflexivity.
  - split.
    + destruct (f x) as [y | e] eqn:Hy; cbn [bind]; [| discriminate].
      destruct (map_outcome f xs) as [ys' | e] eqn:Hys; cbn [bind];
        [| discriminate].
      intros H. injection H as <-.
      constructor; [exact Hy | now apply IH].
    + intros H. inversion H as [| x' y xs' ys' Hy Hrest]; subst.
      rewrite Hy. cbn [bind].
      apply IH in Hrest. rewrite Hrest. reflexivity.
Qed.

(** X13: when [list(map(f, x))] ends without a fault, the plotted points
    are the [(x, f(x))] in the order of [x]: as many as [x] has elements,
    with [x] as their first coordinates. *)
Theorem plot_points_shape (f : Z -> outcome R) (xs : list Z)
  (pts : list (Z * R)) :
  plot_points f xs = Val pts ->
  map fst pts = xs /\ length pts = length xs /\
  Forall (fun p => f (fst p) = Val (snd p)) pts.
Proof.
  unfold plot_points.
  destruct (map_outcome f xs) as [ys | e] eqn:Hys; cbn [bind]; [| discriminate].
  intros H. injection H as <-.
  apply map_outcome_Forall2 in Hys.
  induction Hys as [| x y xs ys Hxy _ IH]; cbn [combine map length fst snd].
  - repeat split. constructor.
  - destruct IH as [Hfst [Hlen Hall]].
    split; [now rewrite Hfst |]. split; [now rewrite Hlen |].
    constructor; [exact Hxy | exact Hall].
Qed.

Lemma plot_points_shape_witness :
  map fst (points_a (range 3 100 1)) = range 3 100 1 /\
  length (points_a (range 3 100 1)) = length (range 3 100 1) /\
  Forall (fun p => ratio_a (fst p) = Val (snd p)) (points_a (range 3 100 1)).
Proof.
  apply (plot_points_shape ratio_a (range 3 100 1)).
  apply plot_a_val; lia.
Defined.

(** ** [a] for a positive integer [k] *)





